(** * chain/types/ethtypes/tracing.go

    Block-context and account-state overrides used when a call is traced
    against a block without touching the chain.

    The file declares the override records ([BlockOverrides],
    [OverrideAccount], [StateOverride]), the EVM [BlockContext] with its three
    hooks, and one operation, [BlockOverrides.Apply], which writes the present
    override fields into a block context in place. *)

From stdpp Require Import gmap list.

Local Open Scope Z_scope.

(** ** Go values *)

(** Heap addresses.  A Go pointer is either [nil] or the address of an
    allocated object. *)
Definition loc := positive.
Definition pointer := option loc.

(** Reading through a pointer: [None] for [nil] (and for an address that
    holds no object, which a Go program never produces). *)
Definition deref {V : Type} (h : gmap loc V) (p : pointer) : option V :=
  match p with
  | Some l => h !! l
  | None => None
  end.

(** A pointer is valid in a heap when it is [nil] or points to an object. *)
Definition valid {V : Type} (h : gmap loc V) (p : pointer) : Prop :=
  match p with
  | Some l => is_Some (h !! l)
  | None => True
  end.

(** [uint64]: 64-bit unsigned integers are carried by [Z]; the conversion
    [uint64(x)] keeps the low 64 bits. *)
Definition uint64_modulus : Z := 2 ^ 64.
Definition uint64 (x : Z) : Z := x mod uint64_modulus.
Definition is_uint64 (x : Z) : Prop := 0 <= x < uint64_modulus.

(** [new(big.Int).SetUint64(x)]: a fresh [big.Int] object is allocated and
    set to [x]; the expression evaluates to its address.  A [big.Int] is an
    arbitrary-precision integer, i.e. a [Z]. *)
Definition new_bigInt_SetUint64 (x : Z) (h : gmap loc Z) : pointer * gmap loc Z :=
  let l := fresh (dom h) in (Some l, <[l := x]> h).

(** [EthBigInt] is used by [Apply] only through its field [Int], which is
    assigned to a [*big.Int] field: a struct around a [*big.Int]. *)
Record EthBigInt : Type := mkEthBigInt { Int : pointer }.

(** ** Declared types, by name

    Go types are nominal: [EthAddress] and [EthHash] are different types
    whatever their representation.  The declarations of the file that the
    properties below read are kept as data, next to their shallow
    counterparts. *)
Inductive GoType : Type :=
  | TBool
  | TUint64
  | TBigIntPtr
  | TStateDB
  | TEthAddress
  | TEthHash
  | TOverrideAccount.

#[global] Instance GoType_eq_dec : EqDecision GoType.
Proof. solve_decision. Defined.

(** [func(params) results] *)
Record FuncType : Type := mkFuncType {
  func_params : list GoType;
  func_results : list GoType
}.

(** [map[key]elem] *)
Record MapType : Type := mkMapType {
  map_key : GoType;
  map_elem : GoType
}.

(** [CanTransferFunc func(StateDB, EthAddress, *big.Int) bool] *)
Definition CanTransferFunc_decl : FuncType :=
  mkFuncType [TStateDB; TEthAddress; TBigIntPtr] [TBool].

(** [TransferFunc func(StateDB, EthAddress, EthAddress, *big.Int)] *)
Definition TransferFunc_decl : FuncType :=
  mkFuncType [TStateDB; TEthAddress; TEthAddress; TBigIntPtr] [].

(** [GetHashFunc func(uint64) EthAddress] *)
Definition GetHashFunc_decl : FuncType :=
  mkFuncType [TUint64] [TEthAddress].

(** [StateOverride map[EthHash]OverrideAccount] *)
Definition StateOverride_decl : MapType :=
  mkMapType TEthHash TOverrideAccount.

Section ethtypes.

(** Types of the package that are declared outside this file. *)
Context {EthAddress EthHash EthBytes StateDB : Type}.
Context `{Countable EthHash}.

(** Objects reachable through the pointers of this file: [big.Int]s and
    [EthHash] arrays. *)
Record Mem : Type := mkMem {
  bigInts : gmap loc Z;
  ethHashes : gmap loc EthHash
}.

(** *** OverrideAccount, StateOverride *)

(** [Balance **EthBigInt]: a pointer to a pointer to an [EthBigInt]. *)
Record OverrideAccount : Type := mkOverrideAccount {
  Nonce : option Z;
  Code : option EthBytes;
  Balance : option (option EthBigInt);
  State : option (gmap EthHash EthHash);
  StateDiff : option (gmap EthHash EthHash)
}.

Definition StateOverride : Type := gmap EthHash OverrideAccount.

(** *** BlockOverrides

    [Number] and [Difficulty] point to an [EthBigInt]; [Time], [GasLimit]
    and [BaseFee] point to an [EthUint64] and [Coinbase] to an
    [EthAddress], which [Apply] copies by value; [Random] is the
    [*EthHash] itself, which [Apply] stores as a pointer. *)
Record BlockOverrides : Type := mkBlockOverrides {
  diff_Number : option EthBigInt;
  diff_Difficulty : option EthBigInt;
  diff_Time : option Z;
  diff_GasLimit : option Z;
  diff_Coinbase : option EthAddress;
  diff_Random : pointer;
  diff_BaseFee : option Z
}.

(** *** Hook types.  A Go function value may be [nil]; the fields of
    [BlockContext] therefore hold an optional function. *)
Definition CanTransferFunc : Type := StateDB → EthAddress → pointer → bool.
Definition TransferFunc : Type := StateDB → EthAddress → EthAddress → pointer → StateDB.
Definition GetHashFunc : Type := Z → EthAddress.

(** *** BlockContext *)
Record BlockContext : Type := mkBlockContext {
  CanTransfer : option CanTransferFunc;
  Transfer : option TransferFunc;
  GetHash : option GetHashFunc;
  Coinbase : EthAddress;
  GasLimit : Z;
  BlockNumber : pointer;
  Time : Z;
  Difficulty : pointer;
  BaseFee : pointer;
  Random : pointer
}.

(** Field assignments [blockCtx.F = v]. *)
Definition set_BlockNumber (v : pointer) (c : BlockContext) : BlockContext :=
  mkBlockContext (CanTransfer c) (Transfer c) (GetHash c) (Coinbase c)
    (GasLimit c) v (Time c) (Difficulty c) (BaseFee c) (Random c).
Definition set_Difficulty (v : pointer) (c : BlockContext) : BlockContext :=
  mkBlockContext (CanTransfer c) (Transfer c) (GetHash c) (Coinbase c)
    (GasLimit c) (BlockNumber c) (Time c) v (BaseFee c) (Random c).
Definition set_Time (v : Z) (c : BlockContext) : BlockContext :=
  mkBlockContext (CanTransfer c) (Transfer c) (GetHash c) (Coinbase c)
    (GasLimit c) (BlockNumber c) v (Difficulty c) (BaseFee c) (Random c).
Definition set_GasLimit (v : Z) (c : BlockContext) : BlockContext :=
  mkBlockContext (CanTransfer c) (Transfer c) (GetHash c) (Coinbase c)
    v (BlockNumber c) (Time c) (Difficulty c) (BaseFee c) (Random c).
Definition set_Coinbase (v : EthAddress) (c : BlockContext) : BlockContext :=
  mkBlockContext (CanTransfer c) (Transfer c) (GetHash c) v
    (GasLimit c) (BlockNumber c) (Time c) (Difficulty c) (BaseFee c) (Random c).
Definition set_Random (v : pointer) (c : BlockContext) : BlockContext :=
  mkBlockContext (CanTransfer c) (Transfer c) (GetHash c) (Coinbase c)
    (GasLimit c) (BlockNumber c) (Time c) (Difficulty c) (BaseFee c) v.
Definition set_BaseFee (v : pointer) (c : BlockContext) : BlockContext :=
  mkBlockContext (CanTransfer c) (Transfer c) (GetHash c) (Coinbase c)
    (GasLimit c) (BlockNumber c) (Time c) (Difficulty c) v (Random c).

(** A guarded assignment: when [p] is not nil, [f] writes the pointee of
    [p] into the context; otherwise the context stays as it is. *)
Definition if_present {A : Type} (p : option A) (f : A → BlockContext → BlockContext)
    (c : BlockContext) : BlockContext :=
  match p with
  | Some a => f a c
  | None => c
  end.

(** *** BlockOverrides.Apply

    [diff] is the receiver ([None] for a nil receiver), [blockCtx] the
    struct behind the argument pointer, which [Apply] updates in place;
    the updated struct and heap are returned.  The pointer to the context
    is dereferenced by every assignment and is taken to be non-nil. *)
Definition Apply (diff : option BlockOverrides) (blockCtx : BlockContext) (m : Mem)
    : BlockContext * Mem :=
  match diff with
  | None => (blockCtx, m)
  | Some diff =>
    let blockCtx := if_present (diff_Number diff) (λ n, set_BlockNumber (Int n)) blockCtx in
    let blockCtx := if_present (diff_Difficulty diff) (λ n, set_Difficulty (Int n)) blockCtx in
    let blockCtx := if_present (diff_Time diff) (λ t, set_Time (uint64 t)) blockCtx in
    let blockCtx := if_present (diff_GasLimit diff) (λ g, set_GasLimit (uint64 g)) blockCtx in
    let blockCtx := if_present (diff_Coinbase diff) set_Coinbase blockCtx in
    let blockCtx := if_present (diff_Random diff) (λ l, set_Random (Some l)) blockCtx in
    match diff_BaseFee diff with
    | Some b =>
      let '(p, h) := new_bigInt_SetUint64 (uint64 b) (bigInts m) in
      (set_BaseFee p blockCtx, mkMem h (ethHashes m))
    | None => (blockCtx, m)
    end
  end.

(** The shallow type behind each declared type name. *)
Definition GoType_denote (t : GoType) : Type :=
  match t with
  | TBool => bool
  | TUint64 => Z
  | TBigIntPtr => pointer
  | TStateDB => StateDB
  | TEthAddress => EthAddress
  | TEthHash => EthHash
  | TOverrideAccount => OverrideAccount
  end.

(** *** Reading a context by value

    The pointer fields of a context are compared by what they point to:
    [snapshot] reads a context through the heap. *)
Record BlockContextV : Type := mkBlockContextV {
  vCanTransfer : option CanTransferFunc;
  vTransfer : option TransferFunc;
  vGetHash : option GetHashFunc;
  vCoinbase : EthAddress;
  vGasLimit : Z;
  vBlockNumber : option Z;
  vTime : Z;
  vDifficulty : option Z;
  vBaseFee : option Z;
  vRandom : option EthHash
}.

Definition snapshot (m : Mem) (c : BlockContext) : BlockContextV :=
  mkBlockContextV (CanTransfer c) (Transfer c) (GetHash c) (Coinbase c)
    (GasLimit c) (deref (bigInts m) (BlockNumber c)) (Time c)
    (deref (bigInts m) (Difficulty c)) (deref (bigInts m) (BaseFee c))
    (deref (ethHashes m) (Random c)).

(** The value an [*EthBigInt] override carries. *)
Definition EthBigInt_value (m : Mem) (n : EthBigInt) : option Z :=
  deref (bigInts m) (Int n).

(** Well-formed inputs: every pointer is nil or points to an object of the
    heap, and every [EthUint64] is a 64-bit unsigned value. *)
Definition BlockContext_wf (m : Mem) (c : BlockContext) : Prop :=
  valid (bigInts m) (BlockNumber c) ∧ valid (bigInts m) (Difficulty c) ∧
  valid (bigInts m) (BaseFee c) ∧ valid (ethHashes m) (Random c).

Definition EthBigInt_wf (m : Mem) (p : option EthBigInt) : Prop :=
  match p with
  | Some n => valid (bigInts m) (Int n)
  | None => True
  end.

Definition EthUint64_wf (p : option Z) : Prop :=
  match p with
  | Some v => is_uint64 v
  | None => True
  end.

Definition BlockOverrides_wf (m : Mem) (d : BlockOverrides) : Prop :=
  EthBigInt_wf m (diff_Number d) ∧ EthBigInt_wf m (diff_Difficulty d) ∧
  EthUint64_wf (diff_Time d) ∧ EthUint64_wf (diff_GasLimit d) ∧
  valid (ethHashes m) (diff_Random d) ∧ EthUint64_wf (diff_BaseFee d).

(** A heap extends another when it holds the same [EthHash] objects and
    every valid [big.Int] pointer stays valid and reads the same value. *)
Definition extends (m m' : Mem) : Prop :=
  ethHashes m' = ethHashes m ∧
  ∀ p, valid (bigInts m) p →
       valid (bigInts m') p ∧ deref (bigInts m') p = deref (bigInts m) p.

(** Last writer wins: the later override if present, else the earlier one
    if present, else the base value. *)
Definition last_writer {A : Type} (later earlier : option A) (base : A) : A :=
  match later, earlier with
  | Some x, _ => x
  | None, Some x => x
  | None, None => base
  end.

(** Two override sets set disjoint fields. *)
Definition both_set {A B : Type} (x : option A) (y : option B) : bool :=
  match x, y with
  | Some _, Some _ => true
  | _, _ => false
  end.

Definition disjoint_overrides (a b : BlockOverrides) : Prop :=
  both_set (diff_Number a) (diff_Number b) = false ∧
  both_set (diff_Difficulty a) (diff_Difficulty b) = false ∧
  both_set (diff_Time a) (diff_Time b) = false ∧
  both_set (diff_GasLimit a) (diff_GasLimit b) = false ∧
  both_set (diff_Coinbase a) (diff_Coinbase b) = false ∧
  both_set (diff_Random a) (diff_Random b) = false ∧
  both_set (diff_BaseFee a) (diff_BaseFee b) = false.

(** ** Account State Overrider

    The file declares the override records only; the operation that merges
    a [StateOverride] into an account view is described by the design
    document (section 4.2).  It is stated over any key type [AccountKey]:
    the document keys accounts by address, the declaration above by
    [EthHash]. *)

Context {AccountKey : Type} `{Countable AccountKey}.

(** The zero value of [EthHash]. *)
Context (zero_hash : EthHash).

(** Modelled from the spec: the base account and storage view, a read-only
    lookup capability owned by the caller. *)
Record StateView : Type := mkStateView {
  get_nonce : AccountKey → Z;
  get_code : AccountKey → EthBytes;
  get_balance : AccountKey → Z;
  get_state : AccountKey → EthHash → EthHash
}.

(** Modelled from the spec: the three states of a balance override,
    [Unset | ClearToZero | SetTo(amount)]. *)
Inductive BalanceOverlay : Type :=
  | BalanceUnset
  | ClearToZero
  | SetTo (amount : Z).

(** Modelled from the spec: the storage part of an accepted override,
    [FullReplace(map) | Diff(map) | Unset]. *)
Inductive StorageOverlay : Type :=
  | StorageUnset
  | FullReplace (slots : gmap EthHash EthHash)
  | Diff (slots : gmap EthHash EthHash).

(** Modelled from the spec: what the transient per-call overlay holds for
    one account. *)
Record AccountOverlay : Type := mkAccountOverlay {
  ov_nonce : option Z;
  ov_code : option EthBytes;
  ov_balance : BalanceOverlay;
  ov_storage : StorageOverlay
}.

(** Modelled from the spec: the error of the overrider,
    [ConflictingStateOverride(address)]. *)
Inductive OverrideError : Type :=
  | ConflictingStateOverride (address : AccountKey).

(** Modelled from the spec: step 1, validation; [State] and [StateDiff] are
    mutually exclusive. *)
Definition conflicting (acct : OverrideAccount) : bool :=
  both_set (State acct) (StateDiff acct).

(** Modelled from the spec: an account the overlay says nothing about. *)
Definition untouched : AccountOverlay :=
  mkAccountOverlay None None BalanceUnset StorageUnset.

(** Modelled from the spec: step 2, the nonce, if present, replaces the
    account's nonce. *)
Definition merge_nonce (acct : OverrideAccount) (e : AccountOverlay) : AccountOverlay :=
  match Nonce acct with
  | Some n => mkAccountOverlay (Some n) (ov_code e) (ov_balance e) (ov_storage e)
  | None => e
  end.

(** Modelled from the spec: step 3, the code, if present, replaces the
    account's code. *)
Definition merge_code (acct : OverrideAccount) (e : AccountOverlay) : AccountOverlay :=
  match Code acct with
  | Some c => mkAccountOverlay (ov_nonce e) (Some c) (ov_balance e) (ov_storage e)
  | None => e
  end.

(** Modelled from the spec: step 4, the doubly-optional balance.  Outer
    absence leaves the balance untouched, outer presence with inner absence
    clears it, outer and inner presence replaces it.  (An inner value whose
    integer pointer is nil carries no amount; it is read as a cleared
    balance.) *)
Definition merge_balance (m : Mem) (acct : OverrideAccount) (e : AccountOverlay)
    : AccountOverlay :=
  match Balance acct with
  | None => e
  | Some None => mkAccountOverlay (ov_nonce e) (ov_code e) ClearToZero (ov_storage e)
  | Some (Some b) =>
    match EthBigInt_value m b with
    | Some v => mkAccountOverlay (ov_nonce e) (ov_code e) (SetTo v) (ov_storage e)
    | None => mkAccountOverlay (ov_nonce e) (ov_code e) ClearToZero (ov_storage e)
    end
  end.

(** Modelled from the spec: step 5, storage.  [State] replaces the whole
    storage; otherwise [StateDiff] overwrites the listed slots. *)
Definition merge_storage (acct : OverrideAccount) (e : AccountOverlay) : AccountOverlay :=
  match State acct, StateDiff acct with
  | Some slots, _ => mkAccountOverlay (ov_nonce e) (ov_code e) (ov_balance e) (FullReplace slots)
  | None, Some slots => mkAccountOverlay (ov_nonce e) (ov_code e) (ov_balance e) (Diff slots)
  | None, None => e
  end.

(** Modelled from the spec: steps 2 to 5 for one account, in order, starting
    from an account the overlay says nothing about. *)
Definition merge_account (m : Mem) (acct : OverrideAccount) : AccountOverlay :=
  let e := merge_nonce acct untouched in
  let e := merge_code acct e in
  let e := merge_balance m acct e in
  merge_storage acct e.

(** Modelled from the spec: step 1 for the addresses of the override, in the
    order they are visited: the first account with both [State] and
    [StateDiff] is rejected, with an error naming its address.  The check
    precedes every merge. *)
Fixpoint validate_accounts (l : list (AccountKey * OverrideAccount)) : option OverrideError :=
  match l with
  | [] => None
  | (address, acct) :: l' =>
    if conflicting acct then Some (ConflictingStateOverride address)
    else validate_accounts l'
  end.

(** Modelled from the spec: steps 2 to 5 for the addresses of the override,
    one after the other, written into the overlay. *)
Fixpoint merge_accounts (m : Mem) (l : list (AccountKey * OverrideAccount))
    (ov : gmap AccountKey AccountOverlay) : gmap AccountKey AccountOverlay :=
  match l with
  | [] => ov
  | (address, acct) :: l' => merge_accounts m l' (<[address := merge_account m acct]> ov)
  end.

(** Modelled from the spec: validation, then the merge into an empty
    overlay.  The result is the error, if any, and the overlay as the run
    leaves it; a rejected override leaves it empty. *)
Definition apply_accounts (m : Mem) (l : list (AccountKey * OverrideAccount))
    : option OverrideError * gmap AccountKey AccountOverlay :=
  match validate_accounts l with
  | Some err => (Some err, ∅)
  | None => (None, merge_accounts m l ∅)
  end.

(** Modelled from the spec: the effective view, an overlay over the base:
    the overlay is consulted first, the base answers what it leaves open. *)
Definition effective_state (ov : gmap AccountKey AccountOverlay) (base : StateView) : StateView :=
  mkStateView
    (λ a, match ov !! a with
          | Some e => default (get_nonce base a) (ov_nonce e)
          | None => get_nonce base a
          end)
    (λ a, match ov !! a with
          | Some e => default (get_code base a) (ov_code e)
          | None => get_code base a
          end)
    (λ a, match ov !! a with
          | Some e =>
            match ov_balance e with
            | BalanceUnset => get_balance base a
            | ClearToZero => 0
            | SetTo v => v
            end
          | None => get_balance base a
          end)
    (λ a slot, match ov !! a with
               | Some e =>
                 match ov_storage e with
                 | StorageUnset => get_state base a slot
                 | FullReplace slots => default zero_hash (slots !! slot)
                 | Diff slots => default (get_state base a slot) (slots !! slot)
                 end
               | None => get_state base a slot
               end).

(** Modelled from the spec: [Apply(overrides, baseState)] of the Account
    State Overrider.  An absent override set is a no-op.  The second
    component is the backing store after the call: the overrider builds an
    overlay and never writes through. *)
Definition StateOverride_Apply (m : Mem) (overrides : option (gmap AccountKey OverrideAccount))
    (base : StateView) : (OverrideError + StateView) * StateView :=
  match overrides with
  | None => (inr base, base)
  | Some accounts =>
    match apply_accounts m (map_to_list accounts) with
    | (Some err, _) => (inl err, base)
    | (None, ov) => (inr (effective_state ov base), base)
    end
  end.

End ethtypes.

Arguments Mem : clear implicits.
Arguments BlockOverrides : clear implicits.
Arguments BlockContext : clear implicits.
Arguments BlockContextV : clear implicits.
Arguments CanTransferFunc : clear implicits.
Arguments TransferFunc : clear implicits.
Arguments GetHashFunc : clear implicits.
Arguments OverrideAccount _ _ {_ _}.
Arguments StateOverride _ _ {_ _}.
Arguments StateView : clear implicits.
Arguments OverrideError : clear implicits.
Arguments AccountOverlay _ _ {_ _}.

Arguments GoType_denote _ _ _ _ {_ _} _.

(** ** Concrete inputs

    Addresses, hashes and account keys are written as numbers, code as a
    list of byte values; there is no state database to speak of. *)

(** A heap with three [big.Int]s and one [EthHash]. *)
Definition heap0 : Mem Z :=
  mkMem {[ 1%positive := 17000000; 2%positive := 0; 3%positive := 25 ]}
        {[ 1%positive := 0xfeed ]}.

(** A block context over [heap0]; its [GetHash] hook answers the zero
    address for every block number. *)
Definition ctx0 : BlockContext Z unit :=
  mkBlockContext None None (Some (λ _, 0)) 0xc0ffee 30000000
    (Some 1%positive) 1700000000 (Some 2%positive) (Some 3%positive) (Some 1%positive).

(** [overrideA] sets [Number], [Time] and [BaseFee]; [overrideB] sets
    [Difficulty], [GasLimit] and [Coinbase]; [overrideC] sets [Time] again. *)
Definition overrideA : BlockOverrides Z :=
  mkBlockOverrides (Some (mkEthBigInt (Some 3%positive))) None (Some 1700000012)
    None None None (Some 1000000000).
Definition overrideB : BlockOverrides Z :=
  mkBlockOverrides None (Some (mkEthBigInt (Some 1%positive))) None
    (Some 8000000) (Some 0xbeef) None None.
Definition overrideC : BlockOverrides Z :=
  mkBlockOverrides None None (Some 1700000024) None None None None.

(** [heap1] is [heap0] with a second [big.Int] holding the block number;
    [ctx1] is [ctx0] with its [BlockNumber] pointing to that copy. *)
Definition heap1 : Mem Z :=
  mkMem {[ 1%positive := 17000000; 2%positive := 0; 3%positive := 25;
           4%positive := 17000000 ]}
        {[ 1%positive := 0xfeed ]}.
Definition ctx1 : BlockContext Z unit :=
  mkBlockContext None None (Some (λ _, 0)) 0xc0ffee 30000000
    (Some 4%positive) 1700000000 (Some 2%positive) (Some 3%positive) (Some 1%positive).

(** A base state in which every account has nonce 7, a two-byte code,
    balance 500 and the storage [{1: 0xa0, 2: 0xa2}]. *)
Definition base0 : StateView Z (list Z) Z :=
  mkStateView (λ _, 7) (λ _, [0x60; 0x80]) (λ _, 500)
    (λ _ slot, if decide (slot = 1) then 0xa0 else if decide (slot = 2) then 0xa2 else 0).

Definition acct_diff : OverrideAccount Z (list Z) :=
  mkOverrideAccount None None None None (Some {[ 1 := 0xb1 ]}).
Definition acct_full : OverrideAccount Z (list Z) :=
  mkOverrideAccount (Some 9) None (Some None) (Some {[ 1 := 0xb1 ]}) None.
Definition acct_balance : OverrideAccount Z (list Z) :=
  mkOverrideAccount None (Some []) (Some (Some (mkEthBigInt (Some 3%positive)))) None None.

Definition accounts_ok : gmap Z (OverrideAccount Z (list Z)) :=
  {[ 0x10 := acct_diff; 0x20 := acct_full; 0x30 := acct_balance ]}.

(** * Properties *)

(** ** Pointers and conversions *)

Lemma uint64_exact (v : Z) : is_uint64 v → uint64 v = v.
Proof. intros Hv. unfold uint64. apply Z.mod_small. exact Hv. Qed.

Lemma uint64_is_uint64 (x : Z) : is_uint64 (uint64 x).
Proof. unfold is_uint64, uint64. apply Z.mod_pos_bound. reflexivity. Qed.

(** Allocation leaves every valid pointer valid and its pointee as it
    was. *)
Lemma deref_alloc_frame {V : Type} (h : gmap loc V) (v : V) (p : pointer) :
  valid h p → deref (<[fresh (dom h) := v]> h) p = deref h p.
Proof.
  destruct p as [l|]; simpl; [|done].
  intros Hl. apply lookup_insert_ne. intros <-.
  apply elem_of_dom in Hl. by apply (is_fresh (dom h)).
Qed.

Lemma valid_alloc {V : Type} (h : gmap loc V) (v : V) (p : pointer) :
  valid h p → valid (<[fresh (dom h) := v]> h) p.
Proof.
  destruct p as [l|]; simpl; [|done].
  intros Hl. rewrite lookup_insert. case_decide; eauto.
Qed.

Section block_overrides.

Context {EthAddress EthHash StateDB : Type}.

Implicit Types (m : Mem EthHash) (c : BlockContext EthAddress StateDB).
Implicit Types (d : BlockOverrides EthAddress).

(** ** The equations of [Apply] *)

Lemma Apply_nil c m : Apply None c m = (c, m).
Proof. reflexivity. Qed.

(** What [Apply] leaves in the struct and in the heap, field by field. *)
Lemma Apply_Some d c m :
  Apply (Some d) c m =
  (mkBlockContext (CanTransfer c) (Transfer c) (GetHash c)
     (default (Coinbase c) (diff_Coinbase d))
     (default (GasLimit c) (uint64 <$> diff_GasLimit d))
     (from_option Int (BlockNumber c) (diff_Number d))
     (default (Time c) (uint64 <$> diff_Time d))
     (from_option Int (Difficulty c) (diff_Difficulty d))
     (from_option (λ _, Some (fresh (dom (bigInts m)))) (BaseFee c) (diff_BaseFee d))
     (from_option Some (Random c) (diff_Random d)),
   from_option
     (λ b, mkMem (<[fresh (dom (bigInts m)) := uint64 b]> (bigInts m)) (ethHashes m))
     m (diff_BaseFee d)).
Proof.
  destruct c, d as [[?|] [?|] [?|] [?|] [?|] [?|] [?|]]; reflexivity.
Qed.

(** ** The heap only grows

    [Apply] allocates at most one [big.Int] and writes to no existing
    object. *)

Lemma extends_refl m : extends m m.
Proof. split; [done|]. intros p Hp. by split. Qed.

Lemma Apply_extends d c m : extends m (Apply (Some d) c m).2.
Proof.
  rewrite Apply_Some. simpl. destruct (diff_BaseFee d) as [b|]; simpl.
  - split; [done|]. intros p Hp. split.
    + by apply valid_alloc.
    + by apply deref_alloc_frame.
  - apply extends_refl.
Qed.

Lemma extends_BlockOverrides_wf m m' d :
  extends m m' → BlockOverrides_wf m d → BlockOverrides_wf m' d.
Proof.
  intros [Hh Hb] (Hn & Hd & Ht & Hg & Hr & Hf).
  unfold BlockOverrides_wf. rewrite Hh. repeat split; try done.
  - destruct (diff_Number d); simpl in *; [by apply Hb | done].
  - destruct (diff_Difficulty d); simpl in *; [by apply Hb | done].
Qed.

Lemma Apply_BlockContext_wf d c m :
  BlockOverrides_wf m d → BlockContext_wf m c →
  BlockContext_wf (Apply (Some d) c m).2 (Apply (Some d) c m).1.
Proof.
  intros (Hn & Hd & _ & _ & Hr & _) (Hcn & Hcd & Hcf & Hcr).
  destruct (Apply_extends d c m) as [Hh Hb]. revert Hh Hb.
  rewrite Apply_Some. simpl. intros Hh Hb.
  unfold BlockContext_wf. simpl. rewrite Hh. repeat split.
  - destruct (diff_Number d); simpl in *; by apply Hb.
  - destruct (diff_Difficulty d); simpl in *; by apply Hb.
  - destruct (diff_BaseFee d); simpl in *; [|by apply Hb].
    by rewrite lookup_insert_eq.
  - destruct (diff_Random d); simpl in *; done.
Qed.

(** The context after [Apply], read by value. *)
Lemma snapshot_Apply d c m :
  BlockOverrides_wf m d → BlockContext_wf m c →
  snapshot (Apply (Some d) c m).2 (Apply (Some d) c m).1 =
  mkBlockContextV (CanTransfer c) (Transfer c) (GetHash c)
    (default (Coinbase c) (diff_Coinbase d))
    (default (GasLimit c) (diff_GasLimit d))
    (from_option (EthBigInt_value m) (deref (bigInts m) (BlockNumber c)) (diff_Number d))
    (default (Time c) (diff_Time d))
    (from_option (EthBigInt_value m) (deref (bigInts m) (Difficulty c)) (diff_Difficulty d))
    (from_option Some (deref (bigInts m) (BaseFee c)) (diff_BaseFee d))
    (from_option (λ l, ethHashes m !! l) (deref (ethHashes m) (Random c)) (diff_Random d)).
Proof.
  intros (Hn & Hd & Ht & Hg & Hr & Hf) (Hcn & Hcd & Hcf & Hcr).
  destruct (Apply_extends d c m) as [Hh Hb]. revert Hh Hb.
  rewrite Apply_Some. simpl. intros Hh Hb.
  unfold snapshot. simpl. rewrite Hh. f_equal.
  - destruct (diff_GasLimit d); simpl in *; [by rewrite uint64_exact | done].
  - destruct (diff_Number d); simpl in *; by apply Hb.
  - destruct (diff_Time d); simpl in *; [by rewrite uint64_exact | done].
  - destruct (diff_Difficulty d); simpl in *; by apply Hb.
  - destruct (diff_BaseFee d) as [b|]; simpl in *; [|done].
    rewrite lookup_insert_eq. by rewrite uint64_exact.
  - destruct (diff_Random d); simpl in *; done.
Qed.

(** Two applications in a row, read by value. *)
Lemma snapshot_Apply_Apply A B c m :
  BlockOverrides_wf m A → BlockOverrides_wf m B → BlockContext_wf m c →
  snapshot (Apply (Some B) (Apply (Some A) c m).1 (Apply (Some A) c m).2).2
           (Apply (Some B) (Apply (Some A) c m).1 (Apply (Some A) c m).2).1 =
  mkBlockContextV (CanTransfer c) (Transfer c) (GetHash c)
    (last_writer (diff_Coinbase B) (diff_Coinbase A) (Coinbase c))
    (last_writer (diff_GasLimit B) (diff_GasLimit A) (GasLimit c))
    (last_writer (EthBigInt_value m <$> diff_Number B) (EthBigInt_value m <$> diff_Number A)
       (deref (bigInts m) (BlockNumber c)))
    (last_writer (diff_Time B) (diff_Time A) (Time c))
    (last_writer (EthBigInt_value m <$> diff_Difficulty B)
       (EthBigInt_value m <$> diff_Difficulty A) (deref (bigInts m) (Difficulty c)))
    (last_writer (Some <$> diff_BaseFee B) (Some <$> diff_BaseFee A)
       (deref (bigInts m) (BaseFee c)))
    (last_writer ((λ l, ethHashes m !! l) <$> diff_Random B)
       ((λ l, ethHashes m !! l) <$> diff_Random A) (deref (ethHashes m) (Random c))).
Proof.
  intros HA HB Hc.
  pose proof (Apply_extends A c m) as Hext.
  pose proof (Apply_BlockContext_wf A c m HA Hc) as Hc1.
  pose proof (extends_BlockOverrides_wf _ _ _ Hext HB) as HB1.
  pose proof (snapshot_Apply A c m HA Hc) as H1.
  rewrite (snapshot_Apply B _ _ HB1 Hc1).
  destruct (Apply (Some A) c m) as [c1 m1]. simpl in *.
  unfold snapshot in H1. injection H1 as Eh1 Eh2 Eh3 Ecb Egl Ebn Et Edf Ebf Er.
  rewrite Eh1, Eh2, Eh3, Ecb, Egl, Ebn, Et, Edf, Ebf, Er.
  destruct HB as (HBn & HBd & _ & _ & _ & _).
  destruct Hext as [Hh Hb]. rewrite Hh.
  f_equal.
  all: try by destruct (diff_Coinbase B), (diff_Coinbase A).
  all: try by destruct (diff_GasLimit B), (diff_GasLimit A).
  all: try by destruct (diff_Time B), (diff_Time A).
  all: try by destruct (diff_BaseFee B), (diff_BaseFee A).
  all: try by destruct (diff_Random B), (diff_Random A).
  - destruct (diff_Number B) as [n|], (diff_Number A); simpl in *; try done;
      unfold EthBigInt_value; by apply Hb.
  - destruct (diff_Difficulty B) as [n|], (diff_Difficulty A); simpl in *; try done;
      unfold EthBigInt_value; by apply Hb.
Qed.

Lemma last_writer_same {A : Type} (o : option A) (base : A) :
  last_writer o o base = default base o.
Proof. by destruct o. Qed.

(** ** Claims about [BlockOverrides.Apply] *)

(** C1.  Frame effect of [Apply] with a non-nil override set.  Each of the
    seven fields whose override is present is replaced by the override's
    value: the same [*big.Int] for [Number] and [Difficulty] and the same
    [*EthHash] for [Random], the [EthUint64] itself for [Time] and
    [GasLimit], a [big.Int] holding it for [BaseFee], the address for
    [Coinbase].  Each field whose override is absent is left as it was, in
    the struct and in what it points to.  The three hooks [CanTransfer],
    [Transfer] and [GetHash] are never changed. *)
Theorem Apply_replaces_exactly_the_present_fields d c m c' m' :
  BlockOverrides_wf m d → BlockContext_wf m c →
  Apply (Some d) c m = (c', m') →
  match diff_Number d with
  | Some n => BlockNumber c' = Int n ∧
              deref (bigInts m') (BlockNumber c') = EthBigInt_value m n
  | None => BlockNumber c' = BlockNumber c ∧
            deref (bigInts m') (BlockNumber c') = deref (bigInts m) (BlockNumber c)
  end ∧
  match diff_Difficulty d with
  | Some n => Difficulty c' = Int n ∧
              deref (bigInts m') (Difficulty c') = EthBigInt_value m n
  | None => Difficulty c' = Difficulty c ∧
            deref (bigInts m') (Difficulty c') = deref (bigInts m) (Difficulty c)
  end ∧
  match diff_Time d with
  | Some t => Time c' = t
  | None => Time c' = Time c
  end ∧
  match diff_GasLimit d with
  | Some g => GasLimit c' = g
  | None => GasLimit c' = GasLimit c
  end ∧
  match diff_Coinbase d with
  | Some a => Coinbase c' = a
  | None => Coinbase c' = Coinbase c
  end ∧
  match diff_Random d with
  | Some l => Random c' = Some l ∧
              deref (ethHashes m') (Random c') = ethHashes m !! l
  | None => Random c' = Random c ∧
            deref (ethHashes m') (Random c') = deref (ethHashes m) (Random c)
  end ∧
  match diff_BaseFee d with
  | Some b => deref (bigInts m') (BaseFee c') = Some b
  | None => BaseFee c' = BaseFee c ∧
            deref (bigInts m') (BaseFee c') = deref (bigInts m) (BaseFee c)
  end ∧
  CanTransfer c' = CanTransfer c ∧ Transfer c' = Transfer c ∧ GetHash c' = GetHash c.
Proof.
  intros Hd Hc HA.
  pose proof (snapshot_Apply d c m Hd Hc) as Hv.
  pose proof (Apply_Some d c m) as Hs.
  rewrite HA in Hv, Hs. simpl in Hv. clear HA.
  destruct Hd as (_ & _ & Ht & Hg & _ & _).
  unfold snapshot in Hv. injection Hv as _ _ _ _ _ Ebn _ Edf Ebf Er.
  rewrite Ebn, Edf, Ebf, Er. clear Ebn Edf Ebf Er.
  injection Hs as -> _. simpl.
  repeat split.
  - by destruct (diff_Number d).
  - destruct (diff_Difficulty d); by split.
  - destruct (diff_Time d); simpl in *; [by apply uint64_exact | done].
  - destruct (diff_GasLimit d); simpl in *; [by apply uint64_exact | done].
  - by destruct (diff_Coinbase d).
  - by destruct (diff_Random d).
  - by destruct (diff_BaseFee d).
Qed.

(** C2.  [Apply] on a nil override set is a no-op: the context and the heap
    come back as they were, so the context is equal to the base context in
    every field, by pointer and by value. *)
Theorem Apply_nil_is_noop c m :
  Apply None c m = (c, m) ∧
  snapshot (Apply None c m).2 (Apply None c m).1 = snapshot m c.
Proof. split; reflexivity. Qed.

(** C3.  [Apply] is idempotent: applying the same non-nil override set a
    second time gives a context that is equal, field by field and by value,
    to the context after the first application. *)
Theorem Apply_idempotent d c m c1 m1 c2 m2 :
  BlockOverrides_wf m d → BlockContext_wf m c →
  Apply (Some d) c m = (c1, m1) →
  Apply (Some d) c1 m1 = (c2, m2) →
  snapshot m2 c2 = snapshot m1 c1.
Proof.
  intros Hd Hc H1 H2.
  pose proof (snapshot_Apply_Apply d d c m Hd Hd Hc) as H12.
  pose proof (snapshot_Apply d c m Hd Hc) as H11.
  rewrite H1 in H12, H11. cbn [fst snd] in H12, H11.
  rewrite H2 in H12. cbn [fst snd] in H12.
  rewrite H12, H11. rewrite !last_writer_same.
  f_equal.
  all: try by destruct (diff_Number d).
  all: try by destruct (diff_Difficulty d).
  all: try by destruct (diff_BaseFee d).
  all: try by destruct (diff_Random d).
Qed.

(** C9.  The numeric conversions of [Apply] are exact: for 64-bit unsigned
    [Time], [GasLimit] and [BaseFee] override values [v], the [Time] and
    [GasLimit] fields of the resulting context are [v] and its [BaseFee]
    points to a [big.Int] whose value is [v]. *)
Theorem Apply_conversions_exact d c m c' m' :
  EthUint64_wf (diff_Time d) → EthUint64_wf (diff_GasLimit d) →
  EthUint64_wf (diff_BaseFee d) →
  Apply (Some d) c m = (c', m') →
  (∀ v, diff_Time d = Some v → Time c' = v) ∧
  (∀ v, diff_GasLimit d = Some v → GasLimit c' = v) ∧
  (∀ v, diff_BaseFee d = Some v → deref (bigInts m') (BaseFee c') = Some v).
Proof.
  intros Ht Hg Hf HA. rewrite Apply_Some in HA. injection HA as <- <-.
  repeat split; intros v Hv; rewrite Hv in *; simpl in *.
  - by apply uint64_exact.
  - by apply uint64_exact.
  - rewrite lookup_insert_eq. f_equal. by apply uint64_exact.
Qed.

(** C10.  Two non-nil override sets applied one after the other are
    last-writer-wins per field, by value: each field is [B]'s value if [B]
    sets it, else [A]'s value if [A] sets it, else the base value; the hooks
    stay those of the base.  When [A] and [B] set disjoint fields, applying
    [B] then [A] gives the same context (and heap) as applying [A] then
    [B]. *)
Theorem Apply_last_writer_wins A B c m c1 m1 c2 m2 :
  BlockOverrides_wf m A → BlockOverrides_wf m B → BlockContext_wf m c →
  Apply (Some A) c m = (c1, m1) →
  Apply (Some B) c1 m1 = (c2, m2) →
  snapshot m2 c2 =
    mkBlockContextV (CanTransfer c) (Transfer c) (GetHash c)
      (last_writer (diff_Coinbase B) (diff_Coinbase A) (Coinbase c))
      (last_writer (diff_GasLimit B) (diff_GasLimit A) (GasLimit c))
      (last_writer (EthBigInt_value m <$> diff_Number B)
         (EthBigInt_value m <$> diff_Number A) (deref (bigInts m) (BlockNumber c)))
      (last_writer (diff_Time B) (diff_Time A) (Time c))
      (last_writer (EthBigInt_value m <$> diff_Difficulty B)
         (EthBigInt_value m <$> diff_Difficulty A) (deref (bigInts m) (Difficulty c)))
      (last_writer (Some <$> diff_BaseFee B) (Some <$> diff_BaseFee A)
         (deref (bigInts m) (BaseFee c)))
      (last_writer ((λ l, ethHashes m !! l) <$> diff_Random B)
         ((λ l, ethHashes m !! l) <$> diff_Random A) (deref (ethHashes m) (Random c))) ∧
  (disjoint_overrides A B →
   ∀ c1' m1' c2' m2',
     Apply (Some B) c m = (c1', m1') →
     Apply (Some A) c1' m1' = (c2', m2') →
     c2' = c2 ∧ m2' = m2).
Proof.
  intros HA HB Hc H1 H2.
  pose proof (snapshot_Apply_Apply A B c m HA HB Hc) as HAB.
  rewrite H1 in HAB. cbn [fst snd] in HAB. rewrite H2 in HAB. cbn [fst snd] in HAB.
  split; [exact HAB|].
  intros (Dn & Dd & Dt & Dg & Dc & Dr & Df) c1' m1' c2' m2' H1' H2'.
  clear HAB. rewrite Apply_Some in H1, H1'.
  injection H1 as <- <-. injection H1' as <- <-.
  rewrite Apply_Some in H2, H2'. cbn in H2, H2'.
  injection H2 as <- <-. injection H2' as <- <-.
  split.
  - f_equal.
    + by destruct (diff_Coinbase A), (diff_Coinbase B).
    + by destruct (diff_GasLimit A), (diff_GasLimit B).
    + by destruct (diff_Number A), (diff_Number B).
    + by destruct (diff_Time A), (diff_Time B).
    + by destruct (diff_Difficulty A), (diff_Difficulty B).
    + by destruct (diff_BaseFee A), (diff_BaseFee B).
    + by destruct (diff_Random A), (diff_Random B).
  - by destruct (diff_BaseFee A), (diff_BaseFee B).
Qed.

(** Idempotence is by value only: when the override sets [BaseFee], the
    second application allocates another [big.Int], so the [BaseFee]
    pointers after one and after two applications differ. *)
Lemma Apply_twice_allocates_again d c m c1 m1 c2 m2 b :
  diff_BaseFee d = Some b →
  Apply (Some d) c m = (c1, m1) →
  Apply (Some d) c1 m1 = (c2, m2) →
  BaseFee c2 ≠ BaseFee c1.
Proof.
  intros Hb H1 H2. rewrite Apply_Some in H1. injection H1 as <- <-.
  rewrite Apply_Some in H2. injection H2 as <- _.
  rewrite Hb. simpl. intros [= Heq].
  pose proof (is_fresh (dom (<[fresh (dom (bigInts m)) := uint64 b]> (bigInts m)))) as Hf.
  rewrite Heq in Hf. apply Hf. rewrite dom_insert_L. set_solver.
Qed.

End block_overrides.

Section state_overrides.

Context {EthHash EthBytes AccountKey : Type}.
Context `{Countable EthHash} `{Countable AccountKey}.
Context (zero_hash : EthHash).

Implicit Types (m : Mem EthHash) (acct : OverrideAccount EthHash EthBytes).
Implicit Types (accounts : gmap AccountKey (OverrideAccount EthHash EthBytes)).
Implicit Types (l : list (AccountKey * OverrideAccount EthHash EthBytes)).
Implicit Types (ov : gmap AccountKey (AccountOverlay EthHash EthBytes)).
Implicit Types (base : StateView EthHash EthBytes AccountKey) (a : AccountKey).

(** ** Validation and merge *)


(** Validation passes exactly when no account has both fields. *)
Lemma validate_accounts_None l :
  validate_accounts l = None ↔ Forall (λ p, conflicting p.2 = false) l.
Proof.
  induction l as [|[a0 acct0] l IH]; simpl.
  - split; [constructor | done].
  - rewrite Forall_cons. simpl. destruct (conflicting acct0).
    + split; [done | intros [? _]; done].
    + rewrite IH. tauto.
Qed.

(** A validation error names an account of the list that has both fields. *)
Lemma validate_accounts_Some l err :
  validate_accounts l = Some err →
  ∃ a' acct', err = ConflictingStateOverride a' ∧ (a', acct') ∈ l ∧ conflicting acct' = true.
Proof.
  induction l as [|[a0 acct0] l IH]; simpl; [done|].
  destruct (conflicting acct0) eqn:Hc0.
  - intros [= <-]. exists a0, acct0. repeat split; [left | done].
  - intros Hv. destruct (IH Hv) as (a' & acct' & -> & Hin & Hc).
    exists a', acct'. repeat split; [by right | done].
Qed.

(** After the merge every address of the list holds its merged fields, and
    the other addresses are as before. *)
Lemma merge_accounts_lookup m l ov a :
  NoDup l.*1 →
  merge_accounts m l ov !! a =
    match (list_to_map l : gmap _ _) !! a with
    | Some acct => Some (merge_account m acct)
    | None => ov !! a
    end.
Proof.
  revert ov. induction l as [|[a0 acct0] l IH]; intros ov Hnd; simpl.
  - by rewrite lookup_empty.
  - apply NoDup_cons in Hnd as [Hnotin Hnd]. rewrite (IH _ Hnd).
    destruct (decide (a0 = a)) as [<-|Hne].
    + rewrite lookup_insert_eq.
      rewrite (not_elem_of_list_to_map_1 _ a0 Hnotin). by rewrite lookup_insert_eq.
    + by rewrite !lookup_insert_ne.
Qed.

(** ** The whole override set *)

Lemma StateOverride_Apply_nil m base :
  StateOverride_Apply zero_hash m None base = (inr base, base).
Proof. reflexivity. Qed.

(** An override set without a conflicting account is accepted; the overlay
    holds exactly the merged fields of the named accounts. *)
Lemma StateOverride_Apply_ok m accounts base :
  (∀ a acct, accounts !! a = Some acct → conflicting acct = false) →
  ∃ ov, StateOverride_Apply zero_hash m (Some accounts) base
          = (inr (effective_state zero_hash ov base), base) ∧
        ∀ a, ov !! a = merge_account m <$> accounts !! a.
Proof.
  intros Hok.
  assert (Hv : validate_accounts (map_to_list accounts) = None).
  { apply validate_accounts_None, Forall_forall. intros [a acct] Hin. simpl.
    apply elem_of_map_to_list in Hin. by eapply Hok. }
  exists (merge_accounts m (map_to_list accounts) ∅). split.
  - unfold StateOverride_Apply, apply_accounts. by rewrite Hv.
  - intros a. rewrite merge_accounts_lookup by apply NoDup_fst_map_to_list.
    rewrite list_to_map_to_list.
    destruct (accounts !! a); [done|]. by rewrite lookup_empty.
Qed.

(** An override set with a conflicting account is rejected before anything
    is merged; the error names a conflicting account of the set. *)
Lemma StateOverride_Apply_conflict m accounts base a acct :
  accounts !! a = Some acct → conflicting acct = true →
  ∃ a' acct',
    apply_accounts m (map_to_list accounts) = (Some (ConflictingStateOverride a'), ∅) ∧
    StateOverride_Apply zero_hash m (Some accounts) base
      = (inl (ConflictingStateOverride a'), base) ∧
    accounts !! a' = Some acct' ∧ conflicting acct' = true.
Proof.
  intros Ha Hc.
  destruct (validate_accounts (map_to_list accounts)) as [err|] eqn:Hv.
  - destruct (validate_accounts_Some _ _ Hv) as (a' & acct' & -> & Hin & Hc').
    exists a', acct'. repeat split; try done.
    + unfold apply_accounts. by rewrite Hv.
    + unfold StateOverride_Apply, apply_accounts. by rewrite Hv.
    + by apply elem_of_map_to_list.
  - apply validate_accounts_None in Hv.
    apply (proj1 (Forall_forall _ _)) with (x := (a, acct)) in Hv.
    + simpl in Hv. congruence.
    + by apply elem_of_map_to_list.
Qed.

(** An account that the override set does not name is read from the base. *)
Lemma unnamed_account_reads_base m accounts base eff a :
  StateOverride_Apply zero_hash m (Some accounts) base = (inr eff, base) →
  accounts !! a = None →
  get_nonce eff a = get_nonce base a ∧ get_code eff a = get_code base a ∧
  get_balance eff a = get_balance base a ∧
  ∀ slot, get_state eff a slot = get_state base a slot.
Proof.
  intros Hrun Ha.
  assert (Hok : ∀ a' acct', accounts !! a' = Some acct' → conflicting acct' = false).
  { intros a' acct' Ha'. destruct (conflicting acct') eqn:Hc; [|done].
    destruct (StateOverride_Apply_conflict m accounts base a' acct' Ha' Hc)
      as (? & ? & _ & Hrun' & _). congruence. }
  destruct (StateOverride_Apply_ok m accounts base Hok) as (ov & Hrun' & Hlook).
  rewrite Hrun' in Hrun. injection Hrun as <-.
  simpl. rewrite Hlook, Ha. simpl. done.
Qed.

(** ** Claims about the Account State Overrider *)


(** C5.  Storage override of an accepted override set.  If the account has
    [State], a slot of its effective storage reads the value the given map
    has for it, and the zero value when the map does not list it: the base
    storage is discarded.  If it has [StateDiff] instead, a listed slot
    reads the diff's value and any other slot reads as in the base. *)
Theorem storage_override m accounts base a acct :
  (∀ a' acct', accounts !! a' = Some acct' → conflicting acct' = false) →
  accounts !! a = Some acct →
  ∃ eff,
    StateOverride_Apply zero_hash m (Some accounts) base = (inr eff, base) ∧
    (∀ slots, State acct = Some slots →
       ∀ slot, get_state eff a slot = default zero_hash (slots !! slot)) ∧
    (∀ slots, State acct = None → StateDiff acct = Some slots →
       ∀ slot, get_state eff a slot = default (get_state base a slot) (slots !! slot)).
Proof.
  intros Hok Ha.
  destruct (StateOverride_Apply_ok m accounts base Hok) as (ov & Hrun & Hlook).
  eexists. split; [exact Hrun|].
  split; intros slots.
  - intros Hs slot. simpl. rewrite Hlook, Ha. simpl.
    unfold merge_account, merge_storage. by rewrite Hs.
  - intros Hs Hd slot. simpl. rewrite Hlook, Ha. simpl.
    unfold merge_account, merge_storage. by rewrite Hs, Hd.
Qed.

(** C6.  Balance override of an accepted override set, in its three states:
    outer field absent, the balance is the base balance; outer present and
    inner absent, the balance is zero; outer and inner present with value
    [v], the balance is [v]. *)
Theorem balance_override m accounts base a acct :
  (∀ a' acct', accounts !! a' = Some acct' → conflicting acct' = false) →
  accounts !! a = Some acct →
  ∃ eff,
    StateOverride_Apply zero_hash m (Some accounts) base = (inr eff, base) ∧
    (Balance acct = None → get_balance eff a = get_balance base a) ∧
    (Balance acct = Some None → get_balance eff a = 0) ∧
    (∀ b v, Balance acct = Some (Some b) → EthBigInt_value m b = Some v →
       get_balance eff a = v).
Proof.
  intros Hok Ha.
  destruct (StateOverride_Apply_ok m accounts base Hok) as (ov & Hrun & Hlook).
  eexists. split; [exact Hrun|].
  assert (Hst : ∀ e, ov_balance (merge_storage acct e) = ov_balance e).
  { intros e. unfold merge_storage. by destruct (State acct), (StateDiff acct). }
  assert (Hco : ∀ e, ov_balance (merge_code acct e) = ov_balance e).
  { intros e. unfold merge_code. by destruct (Code acct). }
  assert (Hno : ∀ e, ov_balance (merge_nonce acct e) = ov_balance e).
  { intros e. unfold merge_nonce. by destruct (Nonce acct). }
  repeat split.
  - intros Hb. simpl. rewrite Hlook, Ha. simpl.
    unfold merge_account. rewrite Hst. unfold merge_balance. rewrite Hb.
    by rewrite Hco, Hno.
  - intros Hb. simpl. rewrite Hlook, Ha. simpl.
    unfold merge_account. rewrite Hst. unfold merge_balance. by rewrite Hb.
  - intros b v Hb Hv. simpl. rewrite Hlook, Ha. simpl.
    unfold merge_account. rewrite Hst. unfold merge_balance. by rewrite Hb, Hv.
Qed.

End state_overrides.

(** ** Claims about the declarations *)

Section declarations.

Context {EthAddress EthHash EthBytes StateDB : Type}.
Context `{Countable EthHash}.

(** C7.  The hash-lookup hook as the file declares it: [GetHashFunc] takes
    a block number ([uint64]) and returns an [EthAddress], which is not the
    type [EthHash]; the comment on the declaration promises the n'th block
    hash. *)
Theorem GetHashFunc_returns_EthAddress :
  func_params GetHashFunc_decl = [TUint64] ∧
  func_results GetHashFunc_decl = [TEthAddress] ∧
  GetHashFunc EthAddress =
    (GoType_denote EthAddress EthHash EthBytes StateDB TUint64 →
     GoType_denote EthAddress EthHash EthBytes StateDB TEthAddress) ∧
  TEthAddress ≠ TEthHash.
Proof. repeat split; done. Qed.

(** C8.  [StateOverride] as the file declares it: a map whose values are
    [OverrideAccount] records and whose keys are of type [EthHash], which
    is not the address type [EthAddress]. *)
Theorem StateOverride_is_keyed_by_EthHash :
  map_key StateOverride_decl = TEthHash ∧
  map_elem StateOverride_decl = TOverrideAccount ∧
  StateOverride EthHash EthBytes = gmap EthHash (OverrideAccount EthHash EthBytes) ∧
  TEthHash ≠ TEthAddress.
Proof. repeat split; done. Qed.

End declarations.

(** * Examples and witnesses *)

Ltac solve_wf :=
  repeat split; simpl;
  try (eexists; reflexivity);
  try (unfold is_uint64, uint64_modulus; lia).

Lemma heap0_overrideA_wf : BlockOverrides_wf heap0 overrideA.
Proof. solve_wf. Defined.

Lemma heap0_overrideB_wf : BlockOverrides_wf heap0 overrideB.
Proof. solve_wf. Defined.

Lemma heap0_ctx0_wf : BlockContext_wf heap0 ctx0.
Proof. solve_wf. Defined.

(** [overrideA] on [ctx0]: number, time and base fee change, the rest
    stays. *)
Example Apply_overrideA :
  snapshot (Apply (Some overrideA) ctx0 heap0).2 (Apply (Some overrideA) ctx0 heap0).1
  = mkBlockContextV None None (GetHash ctx0) 0xc0ffee 30000000 (Some 25) 1700000012
      (Some 0) (Some 1000000000) (Some 0xfeed).
Proof. vm_compute. reflexivity. Qed.

(** The base fee of [ctx0] lives at address 3; after one application it
    lives at 4, after two at 5. *)
Example Apply_overrideA_BaseFee_pointers :
  BaseFee ctx0 = Some 3%positive ∧
  BaseFee (Apply (Some overrideA) ctx0 heap0).1 = Some 4%positive ∧
  BaseFee (Apply (Some overrideA) (Apply (Some overrideA) ctx0 heap0).1
             (Apply (Some overrideA) ctx0 heap0).2).1 = Some 5%positive.
Proof. vm_compute. done. Qed.

(** A value outside the 64-bit range is not an [EthUint64]; the conversion
    would wrap it. *)
Example uint64_wraps : uint64 (2 ^ 64 + 5) = 5.
Proof. reflexivity. Qed.

Lemma Apply_replaces_exactly_the_present_fields_witness :
  BlockOverrides_wf heap0 overrideA ∧ BlockContext_wf heap0 ctx0 ∧
  Time (Apply (Some overrideA) ctx0 heap0).1 = 1700000012 ∧
  GasLimit (Apply (Some overrideA) ctx0 heap0).1 = GasLimit ctx0 ∧
  deref (bigInts (Apply (Some overrideA) ctx0 heap0).2)
        (BaseFee (Apply (Some overrideA) ctx0 heap0).1) = Some 1000000000 ∧
  GetHash (Apply (Some overrideA) ctx0 heap0).1 = GetHash ctx0.
Proof.
  split; [exact heap0_overrideA_wf | split; [exact heap0_ctx0_wf |]].
  destruct (Apply_replaces_exactly_the_present_fields overrideA ctx0 heap0 _ _
              heap0_overrideA_wf heap0_ctx0_wf (surjective_pairing _))
    as (_ & _ & Ht & Hg & _ & _ & Hf & _ & _ & Hh).
  split; [exact Ht | split; [exact Hg | split; [exact Hf | exact Hh]]].
Defined.

Lemma Apply_idempotent_witness :
  BlockOverrides_wf heap0 overrideA ∧ BlockContext_wf heap0 ctx0 ∧
  snapshot (Apply (Some overrideA) (Apply (Some overrideA) ctx0 heap0).1
              (Apply (Some overrideA) ctx0 heap0).2).2
           (Apply (Some overrideA) (Apply (Some overrideA) ctx0 heap0).1
              (Apply (Some overrideA) ctx0 heap0).2).1
  = snapshot (Apply (Some overrideA) ctx0 heap0).2 (Apply (Some overrideA) ctx0 heap0).1.
Proof.
  split; [exact heap0_overrideA_wf | split; [exact heap0_ctx0_wf |]].
  exact (Apply_idempotent overrideA ctx0 heap0 _ _ _ _
           heap0_overrideA_wf heap0_ctx0_wf (surjective_pairing _) (surjective_pairing _)).
Defined.

Lemma Apply_conversions_exact_witness :
  EthUint64_wf (diff_Time overrideA) ∧ EthUint64_wf (diff_GasLimit overrideA) ∧
  EthUint64_wf (diff_BaseFee overrideA) ∧
  Time (Apply (Some overrideA) ctx0 heap0).1 = 1700000012 ∧
  deref (bigInts (Apply (Some overrideA) ctx0 heap0).2)
        (BaseFee (Apply (Some overrideA) ctx0 heap0).1) = Some 1000000000.
Proof.
  assert (Ht : EthUint64_wf (diff_Time overrideA)) by solve_wf.
  assert (Hg : EthUint64_wf (diff_GasLimit overrideA)) by solve_wf.
  assert (Hf : EthUint64_wf (diff_BaseFee overrideA)) by solve_wf.
  split; [exact Ht | split; [exact Hg | split; [exact Hf |]]].
  destruct (Apply_conversions_exact overrideA ctx0 heap0 _ _ Ht Hg Hf (surjective_pairing _))
    as (HT & _ & HF).
  split; [by apply HT | by apply HF].
Defined.

Lemma Apply_last_writer_wins_witness :
  BlockOverrides_wf heap0 overrideA ∧ BlockOverrides_wf heap0 overrideC ∧
  BlockContext_wf heap0 ctx0 ∧
  vTime (snapshot (Apply (Some overrideC) (Apply (Some overrideA) ctx0 heap0).1
                     (Apply (Some overrideA) ctx0 heap0).2).2
                  (Apply (Some overrideC) (Apply (Some overrideA) ctx0 heap0).1
                     (Apply (Some overrideA) ctx0 heap0).2).1) = 1700000024.
Proof.
  assert (HC : BlockOverrides_wf heap0 overrideC) by solve_wf.
  split; [exact heap0_overrideA_wf | split; [exact HC | split; [exact heap0_ctx0_wf |]]].
  destruct (Apply_last_writer_wins overrideA overrideC ctx0 heap0 _ _ _ _
              heap0_overrideA_wf HC heap0_ctx0_wf (surjective_pairing _) (surjective_pairing _))
    as [Hv _].
  rewrite Hv. reflexivity.
Defined.

(** [overrideA] and [overrideB] set disjoint fields and commute. *)
Example Apply_overrideA_overrideB_commute :
  disjoint_overrides overrideA overrideB ∧
  Apply (Some overrideA) (Apply (Some overrideB) ctx0 heap0).1 (Apply (Some overrideB) ctx0 heap0).2
  = Apply (Some overrideB) (Apply (Some overrideA) ctx0 heap0).1 (Apply (Some overrideA) ctx0 heap0).2.
Proof. split; [repeat split | vm_compute; reflexivity]. Qed.

(** [overrideA] and [overrideC] both set [Time] and do not commute. *)
Example Apply_overrideA_overrideC_order :
  Time (Apply (Some overrideC) (Apply (Some overrideA) ctx0 heap0).1
          (Apply (Some overrideA) ctx0 heap0).2).1 = 1700000024 ∧
  Time (Apply (Some overrideA) (Apply (Some overrideC) ctx0 heap0).1
          (Apply (Some overrideC) ctx0 heap0).2).1 = 1700000012.
Proof. vm_compute. done. Qed.

Lemma accounts_ok_accepted :
  ∀ a acct, accounts_ok !! a = Some acct → conflicting acct = false.
Proof.
  change (map_Forall (λ _ acct, conflicting acct = false) accounts_ok).
  apply map_Forall_to_list. vm_compute. repeat constructor.
Defined.

(** The two storage examples of the design document: a diff [{1: 0xb1}]
    over the base storage [{1: 0xa0, 2: 0xa2}] reads [{1: 0xb1, 2: 0xa2}];
    a full replacement [{1: 0xb1}] reads [{1: 0xb1}] and zero at slot 2. *)
Example storage_override_examples :
  match (StateOverride_Apply 0 heap0 (Some accounts_ok) base0).1 with
  | inr eff =>
    get_state eff 0x10 1 = 0xb1 ∧ get_state eff 0x10 2 = 0xa2 ∧
    get_state eff 0x20 1 = 0xb1 ∧ get_state eff 0x20 2 = 0
  | inl _ => False
  end.
Proof. vm_compute. done. Qed.

(** The three balance states: untouched (500), cleared (0), replaced by the
    [big.Int] at address 3 (25). *)
Example balance_override_examples :
  match (StateOverride_Apply 0 heap0 (Some accounts_ok) base0).1 with
  | inr eff =>
    get_balance eff 0x10 = 500 ∧ get_balance eff 0x20 = 0 ∧ get_balance eff 0x30 = 25
  | inl _ => False
  end.
Proof. vm_compute. done. Qed.



Lemma storage_override_witness :
  (∀ a acct, accounts_ok !! a = Some acct → conflicting acct = false) ∧
  accounts_ok !! 0x10 = Some acct_diff ∧
  ∃ eff, StateOverride_Apply 0 heap0 (Some accounts_ok) base0 = (inr eff, base0) ∧
         get_state eff 0x10 1 = 0xb1 ∧ get_state eff 0x10 2 = 0xa2.
Proof.
  assert (Ha : accounts_ok !! 0x10 = Some acct_diff) by (vm_compute; reflexivity).
  split; [exact accounts_ok_accepted | split; [exact Ha |]].
  destruct (storage_override 0 heap0 accounts_ok base0 0x10 acct_diff accounts_ok_accepted Ha)
    as (eff & Happ & _ & Hdiff).
  exists eff. split; [exact Happ|].
  split; rewrite (Hdiff {[ 1 := 0xb1 ]} eq_refl eq_refl); reflexivity.
Defined.

Lemma balance_override_witness :
  (∀ a acct, accounts_ok !! a = Some acct → conflicting acct = false) ∧
  accounts_ok !! 0x30 = Some acct_balance ∧
  ∃ eff, StateOverride_Apply 0 heap0 (Some accounts_ok) base0 = (inr eff, base0) ∧
         get_balance eff 0x30 = 25.
Proof.
  assert (Ha : accounts_ok !! 0x30 = Some acct_balance) by (vm_compute; reflexivity).
  split; [exact accounts_ok_accepted | split; [exact Ha |]].
  destruct (balance_override 0 heap0 accounts_ok base0 0x30 acct_balance accounts_ok_accepted Ha)
    as (eff & Happ & _ & _ & Hset).
  exists eff. split; [exact Happ|].
  apply (Hset (mkEthBigInt (Some 3%positive)) 25); reflexivity.
Defined.

(** * Further properties of [BlockOverrides.Apply] *)

Section block_overrides_heap.

Context {EthAddress EthHash StateDB : Type}.

Implicit Types (m : Mem EthHash) (c : BlockContext EthAddress StateDB).
Implicit Types (d : BlockOverrides EthAddress).

(** X1.  [Apply] writes to no object that exists: the [EthHash] objects
    are the same, every [big.Int] of the heap is still there with its
    value.  Without a [BaseFee] override the heap is unchanged; with one,
    exactly one [big.Int] is added, at an address that was free, and the
    context's [BaseFee] points to it. *)
Theorem Apply_writes_no_existing_object d c m :
  ethHashes (Apply (Some d) c m).2 = ethHashes m ∧
  (∀ l v, bigInts m !! l = Some v → bigInts (Apply (Some d) c m).2 !! l = Some v) ∧
  match diff_BaseFee d with
  | Some b =>
    ∃ l, bigInts m !! l = None ∧
         BaseFee (Apply (Some d) c m).1 = Some l ∧
         bigInts (Apply (Some d) c m).2 = <[l := uint64 b]> (bigInts m) ∧
         size (bigInts (Apply (Some d) c m).2) = S (size (bigInts m))
  | None => (Apply (Some d) c m).2 = m
  end.
Proof.
  rewrite Apply_Some. cbn [fst snd].
  assert (Hfresh : bigInts m !! fresh (dom (bigInts m)) = None).
  { apply not_elem_of_dom. apply is_fresh. }
  destruct (diff_BaseFee d) as [b|]; simpl.
  - split; [done|]. split.
    + intros l v Hl. rewrite lookup_insert_ne; [done|]. intros <-. congruence.
    + exists (fresh (dom (bigInts m))). repeat split; try done.
      by apply map_size_insert_None.
  - done.
Qed.

(** X2.  The [big.Int] that [Apply] makes for a [BaseFee] override is new:
    the resulting [BaseFee] pointer is not nil and differs from every
    pointer that was valid before the call, so it shares no object with
    the base context's [BaseFee], nor with the resulting [BlockNumber] and
    [Difficulty] (which may point into the override set). *)
Theorem Apply_BaseFee_is_unaliased d c m c' m' b :
  BlockOverrides_wf m d → BlockContext_wf m c →
  diff_BaseFee d = Some b →
  Apply (Some d) c m = (c', m') →
  (∀ p, valid (bigInts m) p → BaseFee c' ≠ p) ∧
  BaseFee c' ≠ BaseFee c ∧ BaseFee c' ≠ BlockNumber c' ∧ BaseFee c' ≠ Difficulty c'.
Proof.
  intros (Hn & Hd & _) (Hcn & Hcd & Hcf & _) Hb HA.
  rewrite Apply_Some in HA. injection HA as <- _. rewrite Hb. simpl.
  assert (Hnew : ∀ p, valid (bigInts m) p → Some (fresh (dom (bigInts m))) ≠ p).
  { intros [l|] Hp; [|done]. intros [= <-]. simpl in Hp.
    apply elem_of_dom in Hp. by apply (is_fresh (dom (bigInts m))). }
  repeat split.
  - exact Hnew.
  - by apply Hnew.
  - apply Hnew. by destruct (diff_Number d).
  - apply Hnew. by destruct (diff_Difficulty d).
Qed.

(** X3.  [Apply] keeps pointers valid: after the call every pointer of the
    context points to an object of the resulting heap (or is nil), and the
    override set is still well formed over the resulting heap, so it can be
    applied again. *)
Theorem Apply_keeps_pointers_valid d c m c' m' :
  BlockOverrides_wf m d → BlockContext_wf m c →
  Apply (Some d) c m = (c', m') →
  BlockContext_wf m' c' ∧ BlockOverrides_wf m' d.
Proof.
  intros Hd Hc HA.
  pose proof (Apply_BlockContext_wf d c m Hd Hc) as Hc'.
  pose proof (Apply_extends d c m) as Hext.
  rewrite HA in Hc', Hext. cbn [fst snd] in Hc', Hext.
  split; [exact Hc'|]. by eapply extends_BlockOverrides_wf.
Qed.

(** X4.  When a non-nil override set changes nothing.  [Apply] returns the
    context and the heap exactly as they were if and only if [BaseFee] is
    not overridden and every present override already is what the context
    holds (the same pointer for [Number], [Difficulty] and [Random], the
    same value for [Time], [GasLimit] and [Coinbase]).  In particular an
    override set with no field set is a no-op, and one with [BaseFee] set
    never is. *)
Theorem Apply_noop_iff d c m :
  Apply (Some d) c m = (c, m) ↔
  (∀ n, diff_Number d = Some n → Int n = BlockNumber c) ∧
  (∀ n, diff_Difficulty d = Some n → Int n = Difficulty c) ∧
  (∀ t, diff_Time d = Some t → uint64 t = Time c) ∧
  (∀ g, diff_GasLimit d = Some g → uint64 g = GasLimit c) ∧
  (∀ a, diff_Coinbase d = Some a → a = Coinbase c) ∧
  (∀ l, diff_Random d = Some l → Some l = Random c) ∧
  diff_BaseFee d = None.
Proof.
  rewrite Apply_Some. split.
  - intros HA. injection HA as Hc Hm.
    assert (Hf : diff_BaseFee d = None).
    { destruct (diff_BaseFee d) as [b|]; [|done]. simpl in Hm.
      pose proof (is_fresh (dom (bigInts m))) as Hfr.
      apply (f_equal bigInts) in Hm. simpl in Hm. clear Hc.
      revert Hfr Hm. generalize (fresh (dom (bigInts m))). intros l Hfr Hm.
      exfalso. apply Hfr. rewrite <- Hm, dom_insert_L. set_solver. }
    destruct c. simpl in *. injection Hc as Hcb Hgl Hbn Ht Hdf _ Hr.
    repeat split; try done.
    + intros n Hn. by rewrite Hn in Hbn.
    + intros n Hn. by rewrite Hn in Hdf.
    + intros t Hti. by rewrite Hti in Ht.
    + intros g Hg. by rewrite Hg in Hgl.
    + intros a Ha. by rewrite Ha in Hcb.
    + intros l Hl. by rewrite Hl in Hr.
  - intros (Hn & Hdf & Ht & Hg & Hcb & Hr & Hf). rewrite Hf. simpl.
    destruct c. simpl in *. f_equal. f_equal.
    + destruct (diff_Coinbase d); simpl; [by apply Hcb | done].
    + destruct (diff_GasLimit d); simpl; [by apply Hg | done].
    + destruct (diff_Number d); simpl; [by apply Hn | done].
    + destruct (diff_Time d); simpl; [by apply Ht | done].
    + destruct (diff_Difficulty d); simpl; [by apply Hdf | done].
    + destruct (diff_Random d); simpl; [by apply Hr | done].
Qed.

(** X5.  Applying the same override set a second time gives back exactly
    the context and heap of the first application, pointers included, if
    and only if the set does not override [BaseFee]; with [BaseFee] set,
    each application allocates again. *)
Theorem Apply_twice_exact_iff d c m :
  Apply (Some d) (Apply (Some d) c m).1 (Apply (Some d) c m).2 = Apply (Some d) c m
  ↔ diff_BaseFee d = None.
Proof.
  split.
  - intros HA. destruct (diff_BaseFee d) as [b|] eqn:Hb; [|done]. exfalso.
    eapply (Apply_twice_allocates_again d c m _ _ _ _ b Hb).
    + apply surjective_pairing.
    + rewrite HA. apply surjective_pairing.
    + done.
  - intros Hf. rewrite (Apply_Some d c m). rewrite Hf. cbn [fst snd from_option].
    rewrite Apply_Some. rewrite Hf. simpl. f_equal. f_equal.
    + by destruct (diff_Coinbase d).
    + by destruct (diff_GasLimit d).
    + by destruct (diff_Number d).
    + by destruct (diff_Time d).
    + by destruct (diff_Difficulty d).
    + by destruct (diff_Random d).
Qed.

(** X6.  Which pointers of the context can be nil after [Apply].  A present
    [Number] (or [Difficulty]) override whose [Int] is nil makes
    [BlockNumber] (or [Difficulty]) nil, whatever the base held; otherwise
    the field is nil only if it was.  [BaseFee] and [Random] are nil after
    the call only when they are not overridden and were nil before. *)
Theorem Apply_nil_pointers d c m :
  (BlockNumber (Apply (Some d) c m).1 = None ↔
     match diff_Number d with
     | Some n => Int n = None
     | None => BlockNumber c = None
     end) ∧
  (Difficulty (Apply (Some d) c m).1 = None ↔
     match diff_Difficulty d with
     | Some n => Int n = None
     | None => Difficulty c = None
     end) ∧
  (BaseFee (Apply (Some d) c m).1 = None ↔ diff_BaseFee d = None ∧ BaseFee c = None) ∧
  (Random (Apply (Some d) c m).1 = None ↔ diff_Random d = None ∧ Random c = None).
Proof.
  rewrite Apply_Some. cbn [fst BlockNumber Difficulty BaseFee Random].
  repeat split.
  - by destruct (diff_Number d).
  - by destruct (diff_Number d).
  - by destruct (diff_Difficulty d).
  - by destruct (diff_Difficulty d).
  - by destruct (diff_BaseFee d).
  - by destruct (diff_BaseFee d).
  - by intros [-> ->].
  - by destruct (diff_Random d).
  - by destruct (diff_Random d).
  - by intros [-> ->].
Qed.

(** X7.  [Apply] respects equality by value: two contexts over the same
    heap that read the same (their [big.Int] and [EthHash] fields may be
    different objects with equal contents) read the same after the same
    override set is applied to each. *)
Theorem Apply_respects_values d c1 c2 m :
  BlockOverrides_wf m d → BlockContext_wf m c1 → BlockContext_wf m c2 →
  snapshot m c1 = snapshot m c2 →
  snapshot (Apply (Some d) c1 m).2 (Apply (Some d) c1 m).1
  = snapshot (Apply (Some d) c2 m).2 (Apply (Some d) c2 m).1.
Proof.
  intros Hd H1 H2 Heq.
  rewrite (snapshot_Apply d c1 m Hd H1), (snapshot_Apply d c2 m Hd H2).
  unfold snapshot in Heq. injection Heq as -> -> -> -> -> -> -> -> -> ->.
  reflexivity.
Qed.

End block_overrides_heap.

Lemma heap1_ctx0_wf : BlockContext_wf heap1 ctx0.
Proof. solve_wf. Defined.

Lemma heap1_ctx1_wf : BlockContext_wf heap1 ctx1.
Proof. solve_wf. Defined.

Lemma heap1_overrideA_wf : BlockOverrides_wf heap1 overrideA.
Proof. solve_wf. Defined.

Lemma Apply_BaseFee_is_unaliased_witness :
  BlockOverrides_wf heap0 overrideA ∧ BlockContext_wf heap0 ctx0 ∧
  diff_BaseFee overrideA = Some 1000000000 ∧
  BaseFee (Apply (Some overrideA) ctx0 heap0).1 ≠ BaseFee ctx0 ∧
  BaseFee (Apply (Some overrideA) ctx0 heap0).1
    ≠ BlockNumber (Apply (Some overrideA) ctx0 heap0).1.
Proof.
  split; [exact heap0_overrideA_wf | split; [exact heap0_ctx0_wf | split; [reflexivity|]]].
  destruct (Apply_BaseFee_is_unaliased overrideA ctx0 heap0 _ _ 1000000000
              heap0_overrideA_wf heap0_ctx0_wf eq_refl (surjective_pairing _))
    as (_ & Hf & Hn & _).
  split; [exact Hf | exact Hn].
Defined.

Lemma Apply_keeps_pointers_valid_witness :
  BlockOverrides_wf heap0 overrideA ∧ BlockContext_wf heap0 ctx0 ∧
  BlockContext_wf (Apply (Some overrideA) ctx0 heap0).2 (Apply (Some overrideA) ctx0 heap0).1 ∧
  BlockOverrides_wf (Apply (Some overrideA) ctx0 heap0).2 overrideA.
Proof.
  split; [exact heap0_overrideA_wf | split; [exact heap0_ctx0_wf |]].
  exact (Apply_keeps_pointers_valid overrideA ctx0 heap0 _ _
           heap0_overrideA_wf heap0_ctx0_wf (surjective_pairing _)).
Defined.

(** [ctx0] and [ctx1] hold their block number in different objects. *)
Lemma Apply_respects_values_witness :
  BlockOverrides_wf heap1 overrideA ∧ BlockContext_wf heap1 ctx0 ∧
  BlockContext_wf heap1 ctx1 ∧ BlockNumber ctx0 ≠ BlockNumber ctx1 ∧
  snapshot heap1 ctx0 = snapshot heap1 ctx1 ∧
  snapshot (Apply (Some overrideA) ctx0 heap1).2 (Apply (Some overrideA) ctx0 heap1).1
  = snapshot (Apply (Some overrideA) ctx1 heap1).2 (Apply (Some overrideA) ctx1 heap1).1.
Proof.
  assert (Heq : snapshot heap1 ctx0 = snapshot heap1 ctx1) by (vm_compute; reflexivity).
  split; [exact heap1_overrideA_wf | split; [exact heap1_ctx0_wf | split; [exact heap1_ctx1_wf |]]].
  split; [discriminate | split; [exact Heq |]].
  exact (Apply_respects_values overrideA ctx0 ctx1 heap1
           heap1_overrideA_wf heap1_ctx0_wf heap1_ctx1_wf Heq).
Defined.
